(** * free_monitor: coordinate cache, enrichment client and bulletin parser

    A shallow embedding of [src/core/ai_converter.py] (classes [SQLiteFlow]
    and [AIConverter]) and the properties of its specification.

    Layout:
    - [PyStr]       the Python [str] operations the code calls;
    - [SQLiteFlow]  the two tables and the methods of class [SQLiteFlow];
    - [AIConverter] the parser, the retry loop and the region orchestrator. *)

From Stdlib Require Import Ascii String.
From Stdlib Require Import List Bool NArith ZArith QArith Lia Lqa.
Import ListNotations.

(* ===================================================================== *)
(** * Python strings                                                      *)
(* ===================================================================== *)

Module PyStr.

Local Open Scope N_scope.

(** A Python [str] is a sequence of Unicode code points. *)
Definition pystr := list N.

(** Literals are written as UTF-8 text and decoded to code points. *)
Fixpoint utf8 (s : string) (acc : N) (need : nat) : pystr :=
  match s with
  | EmptyString => []
  | String a s' =>
      let b := N_of_ascii a in
      match need with
      | O => if b <? 128 then b :: utf8 s' 0 0%nat
             else if b <? 224 then utf8 s' (b - 192) 1%nat
             else if b <? 240 then utf8 s' (b - 224) 2%nat
             else utf8 s' (b - 240) 3%nat
      | S O => (acc * 64 + (b - 128)) :: utf8 s' 0 0%nat
      | S n => utf8 s' (acc * 64 + (b - 128)) n
      end
  end.

Definition u (s : string) : pystr := utf8 s 0 0%nat.

Definition str_eqb (a b : pystr) : bool :=
  if list_eq_dec N.eq_dec a b then true else false.

Definition between (lo hi c : N) : bool := (lo <=? c) && (c <=? hi).

(** [str.isspace] on one character: the Unicode white space set. *)
Definition is_space (c : N) : bool :=
  between 9 13 c || between 28 32 c || (c =? 133) || (c =? 160)
  || (c =? 5760) || between 8192 8202 c || (c =? 8232) || (c =? 8233)
  || (c =? 8239) || (c =? 8287) || (c =? 12288).

(** The case tables of the interpreter are not part of the repository.
    They are modelled here on the characters the program is run on: ASCII,
    the Cyrillic block U+0400..U+04FF, and U+0130 (whose lower case is the
    two code points U+0069 U+0307).  Any other character is taken as
    caseless; statements that depend on the tables are made for strings of
    ASCII and Cyrillic characters, or at concrete inputs. *)
Definition cyr_even_upper (c : N) : bool :=
  between 1120 1153 c || between 1162 1215 c || between 1232 1279 c.

Definition is_upper (c : N) : bool :=
  between 65 90 c || (c =? 304)
  || between 1024 1071 c
  || (cyr_even_upper c && N.even c)
  || (c =? 1216)
  || (between 1217 1230 c && N.odd c).

Definition is_lower (c : N) : bool :=
  between 97 122 c
  || between 1072 1119 c
  || (cyr_even_upper c && N.odd c)
  || (c =? 1231)
  || (between 1217 1230 c && N.even c).

Definition is_cased (c : N) : bool := is_upper c || is_lower c.

Definition to_lower (c : N) : N :=
  if between 65 90 c then c + 32
  else if c =? 304 then 105
  else if between 1024 1039 c then c + 80
  else if between 1040 1071 c then c + 32
  else if cyr_even_upper c && N.even c then c + 1
  else if c =? 1216 then 1231
  else if between 1217 1230 c && N.odd c then c + 1
  else c.

Definition to_upper (c : N) : N :=
  if between 97 122 c then c - 32
  else if between 1104 1119 c then c - 80
  else if between 1072 1103 c then c - 32
  else if cyr_even_upper c && N.odd c then c - 1
  else if c =? 1231 then 1216
  else if between 1217 1230 c && N.even c then c - 1
  else c.

Definition lower_full (c : N) : pystr :=
  if c =? 304 then [105; 775] else [to_lower c].

Definition upper_full (c : N) : pystr := [to_upper c].

Definition title_full (c : N) : pystr := [to_upper c].

(** [str.lower], [str.upper]: character by character. *)
Definition lower (s : pystr) : pystr := flat_map lower_full s.
Definition upper (s : pystr) : pystr := flat_map upper_full s.

(** [str.title]: a character that follows a cased character is lowered,
    any other character is title-cased. *)
Fixpoint do_title (previous_is_cased : bool) (s : pystr) : pystr :=
  match s with
  | [] => []
  | c :: r =>
      (if previous_is_cased then lower_full c else title_full c)
        ++ do_title (is_cased c) r
  end.

Definition title (s : pystr) : pystr := do_title false s.

(** [str.strip]: white space removed at both ends. *)
Fixpoint lstrip (s : pystr) : pystr :=
  match s with
  | [] => []
  | c :: r => if is_space c then lstrip r else s
  end.

Definition rstrip (s : pystr) : pystr := rev (lstrip (rev s)).

Definition strip (s : pystr) : pystr := rstrip (lstrip s).

(** [s.endswith(c)] for a one-character suffix. *)
Definition endswith_char (c : N) (s : pystr) : bool :=
  match rev s with
  | d :: _ => c =? d
  | [] => false
  end.

(** [s.replace(c, '')] for a one-character pattern. *)
Definition remove_char (c : N) (s : pystr) : pystr :=
  filter (fun d => negb (c =? d)) s.

(** [s.split(c)] for a one-character separator. *)
Fixpoint split_on (c : N) (s : pystr) : list pystr :=
  match s with
  | [] => [[]]
  | d :: r =>
      if c =? d then [] :: split_on c r
      else match split_on c r with
           | w :: ws => (d :: w) :: ws
           | [] => [[d]]
           end
  end.

(** [sep.join(parts)] for a one-character separator. *)
Fixpoint join_with (c : N) (parts : list pystr) : pystr :=
  match parts with
  | [] => []
  | [p] => p
  | p :: ps => p ++ c :: join_with c ps
  end.

(** [needle in s]. *)
Fixpoint starts_with (p s : pystr) : bool :=
  match p, s with
  | [], _ => true
  | _, [] => false
  | a :: p', b :: s' => (a =? b) && starts_with p' s'
  end.

Fixpoint contains (needle s : pystr) : bool :=
  starts_with needle s ||
  match s with
  | [] => false
  | _ :: r => contains needle r
  end.

(** Decimal digits and [int(str)] on a string of ASCII digits. *)
Definition is_digit (c : N) : bool := between 48 57 c.

Definition int_of_digits (s : pystr) : N :=
  fold_left (fun acc c => acc * 10 + (c - 48)) s 0.

(** The characters the case tables above are stated for. *)
Definition plain (c : N) : bool := (c <? 128) || between 1024 1279 c.

End PyStr.

(* ===================================================================== *)
(** * class SQLiteFlow                                                    *)
(* ===================================================================== *)

Module SQLiteFlow.

Import PyStr.
Local Open Scope N_scope.

(** ** The two tables

    Latitude, longitude and confidence are SQL REALs.  They are modelled as
    rationals: every finite double is a rational, and the four bounds of the
    validity box (44.0, 52.5, 22.0, 40.5) are doubles, so the comparisons of
    the source are the comparisons below.  Column [created_at] is filled by
    the database and is read by no query of the program; it is left out. *)

Record city_row := CityRow {
  c_id : N;
  c_city_name : pystr;
  c_region_name : pystr;
  c_latitude : Q;
  c_longitude : Q;
  c_confidence : Q;
  c_source : pystr
}.

Record region_row := RegionRow {
  r_id : N;
  r_region_name : pystr;
  r_latitude : Q;
  r_longitude : Q;
  r_confidence : Q;
  r_source : pystr
}.

(** The database file: both tables in rowid order, and for each the
    AUTOINCREMENT counter (the largest rowid ever handed out). *)
Record db := Db {
  cities : list city_row;
  cities_seq : N;
  regions : list region_row;
  regions_seq : N
}.

Definition empty_db : db := Db [] 0 [] 0.

Definition max_list (l : list N) : N := fold_left N.max l 0.

(** The rowid given to an inserted row. *)
Definition next_id (seq : N) (ids : list N) : N := N.max seq (max_list ids) + 1.

(** What the two getters return: a dictionary with the coordinates, the
    confidence and the source. *)
Record coordinates := Coordinates { latitude : Q; longitude : Q }.

Record fact := Fact {
  f_coordinates : coordinates;
  f_confidence : Q;
  f_source : pystr
}.

(** ** normalize_region_name *)

Definition region_corrections : list (pystr * pystr) :=
  [ (u "хмельничена", u "хмельниччина");
    (u "хмельниченна", u "хмельниччина") ].

Fixpoint dict_get (d : list (pystr * pystr)) (k : pystr) : option pystr :=
  match d with
  | [] => None
  | (k', v) :: d' => if str_eqb k' k then Some v else dict_get d' k
  end.

Definition normalize_with (corrections : list (pystr * pystr))
    (region_name : pystr) : pystr :=
  let cleaned := lower (strip region_name) in
  match dict_get corrections cleaned with
  | Some corrected => title corrected
  | None => title (strip region_name)
  end.

Definition normalize_region_name (region_name : pystr) : pystr :=
  normalize_with region_corrections region_name.

(** ** get_city_coordinates *)

Definition city_key (city region : pystr) (r : city_row) : bool :=
  str_eqb (c_city_name r) city && str_eqb (c_region_name r) region.

Definition database_ (source : pystr) : pystr := u "database_" ++ source.

Definition get_city_coordinates (d : db) (city region_name : pystr)
    : option fact :=
  let normalized_region := normalize_region_name region_name in
  match find (city_key city normalized_region) (cities d) with
  | Some r =>
      Some (Fact (Coordinates (c_latitude r) (c_longitude r))
                 (c_confidence r) (database_ (c_source r)))
  | None => None
  end.

(** ** _validate_ukraine_coordinates *)

Definition _validate_ukraine_coordinates (lat lon : Q) : bool :=
  (Qle_bool 44 lat && Qle_bool lat (105 # 2))
  && (Qle_bool 22 lon && Qle_bool lon (81 # 2)).

(** ** save_city_coordinates

    [INSERT OR REPLACE] with [UNIQUE(city_name, region_name)]: a row with
    the same key is deleted and the new row is inserted under a fresh
    rowid. *)

Definition save_city_coordinates (d : db) (city region_name : pystr)
    (lat lon confidence : Q) (source : pystr) : bool * db :=
  if negb (_validate_ukraine_coordinates lat lon) then (false, d)
  else
    let normalized_region := normalize_region_name region_name in
    let id := next_id (cities_seq d) (map c_id (cities d)) in
    let kept :=
      filter (fun r => negb (city_key city normalized_region r)) (cities d) in
    let row := CityRow id city normalized_region lat lon confidence source in
    (true, Db (kept ++ [row]) id (regions d) (regions_seq d)).

(** ** get_region_coordinates

    SQL [LOWER] as built into SQLite folds the 26 ASCII letters and leaves
    every other character as it is. *)

Definition sql_lower (s : pystr) : pystr :=
  map (fun c => if between 65 90 c then c + 32 else c) s.

Definition region_ci (name : pystr) (r : region_row) : bool :=
  str_eqb (sql_lower (r_region_name r)) (sql_lower name).

Definition get_region_coordinates (d : db) (region_name : pystr)
    : option fact :=
  match find (region_ci (strip region_name)) (regions d) with
  | Some r =>
      Some (Fact (Coordinates (r_latitude r) (r_longitude r))
                 (r_confidence r) (database_ (r_source r)))
  | None => None
  end.

(** ** save_region_coordinates

    The [INSERT] is under [UNIQUE(region_name)]; a violation raises, the
    handler returns [False] and nothing is written. *)

Definition save_region_coordinates (d : db) (region_name : pystr)
    (lat lon confidence : Q) (source : pystr) : bool * db :=
  if negb (_validate_ukraine_coordinates lat lon) then (false, d)
  else
    let normalized_region := normalize_region_name region_name in
    match find (region_ci normalized_region) (regions d) with
    | Some _ => (true, d)
    | None =>
        if existsb (fun r => str_eqb (r_region_name r) normalized_region)
                   (regions d)
        then (false, d)
        else
          let id := next_id (regions_seq d) (map r_id (regions d)) in
          let row :=
            RegionRow id normalized_region lat lon confidence source in
          (true, Db (cities d) (cities_seq d) (regions d ++ [row]) id)
    end.

(** ** clean_region_duplicates *)

(** [str(n)] for a rowid. *)
Fixpoint uint_digits (n : Decimal.uint) : pystr :=
  match n with
  | Decimal.Nil => []
  | Decimal.D0 r => 48 :: uint_digits r
  | Decimal.D1 r => 49 :: uint_digits r
  | Decimal.D2 r => 50 :: uint_digits r
  | Decimal.D3 r => 51 :: uint_digits r
  | Decimal.D4 r => 52 :: uint_digits r
  | Decimal.D5 r => 53 :: uint_digits r
  | Decimal.D6 r => 54 :: uint_digits r
  | Decimal.D7 r => 55 :: uint_digits r
  | Decimal.D8 r => 56 :: uint_digits r
  | Decimal.D9 r => 57 :: uint_digits r
  end.

Definition str_of_N (n : N) : pystr := uint_digits (N.to_uint n).

(** One row of the [GROUP BY LOWER(region_name) HAVING COUNT( * ) > 1]
    query: the key, the count, and the two [GROUP_CONCAT] strings.  Groups
    are listed by first occurrence of their key and rows inside a group in
    rowid order (SQL fixes neither order). *)
Record dup_group := DupGroup {
  lower_name : pystr;
  count : nat;
  ids_str : pystr;
  names_str : pystr
}.

Fixpoint distinct_keys (seen : list pystr) (rows : list region_row)
    : list pystr :=
  match rows with
  | [] => []
  | r :: rest =>
      let k := sql_lower (r_region_name r) in
      if existsb (str_eqb k) seen then distinct_keys seen rest
      else k :: distinct_keys (k :: seen) rest
  end.

Definition group_of (rows : list region_row) (k : pystr) : dup_group :=
  let g := filter (fun r => str_eqb (sql_lower (r_region_name r)) k) rows in
  DupGroup k (length g)
           (join_with 44 (map (fun r => str_of_N (r_id r)) g))
           (join_with 44 (map r_region_name g)).

Definition select_duplicates (rows : list region_row) : list dup_group :=
  filter (fun g => Nat.ltb 1 (count g))
         (map (group_of rows) (distinct_keys [] rows)).

(** [ids.index(x)] *)
Fixpoint index_of (x : N) (l : list N) : option nat :=
  match l with
  | [] => None
  | y :: r => if x =? y then Some 0%nat
              else option_map S (index_of x r)
  end.

(** [UPDATE regions SET region_name = ? WHERE id = ?] under
    [UNIQUE(region_name)]: [None] is the integrity error. *)
Definition update_region_name (rows : list region_row) (name : pystr)
    (id : N) : option (list region_row) :=
  if existsb (fun r => negb (r_id r =? id) && str_eqb (r_region_name r) name)
             rows
     && existsb (fun r => r_id r =? id) rows
  then None
  else Some (map (fun r =>
                    if r_id r =? id
                    then RegionRow (r_id r) name (r_latitude r)
                           (r_longitude r) (r_confidence r) (r_source r)
                    else r) rows).

Definition delete_region (rows : list region_row) (id : N)
    : list region_row :=
  filter (fun r => negb (r_id r =? id)) rows.

(** The inner loop: every id of the group but the latest is deleted. *)
Fixpoint remove_others (rows : list region_row) (latest_id : N)
    (ids : list N) (total_removed : nat) : list region_row * nat :=
  match ids with
  | [] => (rows, total_removed)
  | region_id :: rest =>
      if negb (region_id =? latest_id)
      then remove_others (delete_region rows region_id) latest_id rest
             (S total_removed)
      else remove_others rows latest_id rest total_removed
  end.

(** The body of the outer loop for one group.  [corrections] is the
    attribute [self.region_corrections]: [None] while it is not yet
    assigned, and then reading it raises.  [None] as a result is a raised
    exception. *)
Definition clean_group (corrections : option (list (pystr * pystr)))
    (rows : list region_row) (total_removed : nat) (g : dup_group)
    : option (list region_row * nat) :=
  let ids := map int_of_digits (split_on 44 (ids_str g)) in
  let names := split_on 44 (names_str g) in
  let latest_id := max_list ids in
  match index_of latest_id ids with
  | None => None
  | Some latest_index =>
      match nth_error names latest_index with
      | None => None
      | Some latest_name =>
          match corrections with
          | None => None
          | Some table =>
              let normalized_name := normalize_with table latest_name in
              match update_region_name rows normalized_name latest_id with
              | None => None
              | Some rows' =>
                  Some (remove_others rows' latest_id ids total_removed)
              end
          end
      end
  end.

Fixpoint clean_groups (corrections : option (list (pystr * pystr)))
    (rows : list region_row) (total_removed : nat) (gs : list dup_group)
    : option (list region_row * nat) :=
  match gs with
  | [] => Some (rows, total_removed)
  | g :: rest =>
      match clean_group corrections rows total_removed g with
      | None => None
      | Some (rows', n) => clean_groups corrections rows' n rest
      end
  end.

(** The method: one transaction, committed at the end, rolled back when an
    exception leaves the [with] block, in which case 0 is returned. *)
Definition clean_region_duplicates_with
    (corrections : option (list (pystr * pystr))) (d : db) : nat * db :=
  match clean_groups corrections (regions d) 0%nat
          (select_duplicates (regions d)) with
  | Some (rows, total_removed) =>
      (total_removed, Db (cities d) (cities_seq d) rows (regions_seq d))
  | None => (0%nat, d)
  end.

(** On a constructed object the correction table is in place. *)
Definition clean_region_duplicates (d : db) : nat * db :=
  clean_region_duplicates_with (Some region_corrections) d.

(** [__init__] calls the method before it assigns
    [self.region_corrections]. *)
Definition init_clean_region_duplicates (d : db) : nat * db :=
  clean_region_duplicates_with None d.

(** ** get_database_stats *)

Fixpoint distinct (l : list pystr) : list pystr :=
  match l with
  | [] => []
  | x :: r => if existsb (str_eqb x) r then distinct r else x :: distinct r
  end.

Record stats := Stats {
  total_cities : nat;
  total_regions : nat;
  total_regions_with_coords : nat;
  sources : list (pystr * nat)
}.

Definition get_database_stats (d : db) : stats :=
  let srcs := map c_source (cities d) in
  Stats (length (cities d))
        (length (distinct (map c_region_name (cities d))))
        (length (regions d))
        (map (fun s => (s, length (filter (str_eqb s) srcs))) (distinct srcs)).

(** ** Vocabulary of the specification *)

(** The validity box: 44.0 to 52.5 in latitude, 22.0 to 40.5 in
    longitude. *)
Definition in_box (lat lon : Q) : Prop :=
  ((44 <= lat /\ lat <= 105 # 2) /\ (22 <= lon /\ lon <= 81 # 2))%Q.

Definition outside_box (lat lon : Q) : Prop :=
  (lat < 44 \/ 105 # 2 < lat \/ lon < 22 \/ 81 # 2 < lon)%Q.

(** A LocalityFact is present for a city of a region: the table holds a
    row under the key (name, normalized region). *)
Definition cached (d : db) (city region : pystr) : Prop :=
  exists r, In r (cities d)
            /\ c_city_name r = city
            /\ c_region_name r = normalize_region_name region.

(** A row without its rowid: the values a reader can see. *)
Definition city_values (r : city_row)
    : pystr * pystr * Q * Q * Q * pystr :=
  (c_city_name r, c_region_name r, c_latitude r, c_longitude r,
   c_confidence r, c_source r).

(** At most one RegionFact per case-insensitive name. *)
Definition one_fact_per_name (d : db) : Prop :=
  forall r1 r2, In r1 (regions d) -> In r2 (regions d) ->
    sql_lower (r_region_name r1) = sql_lower (r_region_name r2) ->
    r1 = r2.

End SQLiteFlow.

(* ===================================================================== *)
(** * Regular expressions                                                 *)
(* ===================================================================== *)

(** The fragment of [re] that the two patterns of [extract_weapon_info]
    are written in, with the backtracking search of [re.search]: greedy
    quantifiers, ordered alternatives, leftmost match. *)

Module Re.

Import PyStr.
Local Open Scope N_scope.

Inductive regex :=
| Eps                         (* the empty pattern *)
| Lit (c : N)                 (* one literal character *)
| Class (p : N -> bool)       (* \d, \s, \S or the dot *)
| Plus (p : N -> bool)        (* a class under a greedy + *)
| Seq (a b : regex)
| Alt (a b : regex)
| Opt (a : regex)             (* greedy ? *)
| Group (n : nat) (a : regex) (* capturing group number n *).

(** Captured groups; a group that took no part in the match is absent. *)
Definition captures := list (nat * pystr).

Fixpoint group (n : nat) (caps : captures) : option pystr :=
  match caps with
  | [] => None
  | (m, s) :: r => if Nat.eqb m n then Some s else group n r
  end.

Fixpoint lits (s : pystr) : regex :=
  match s with
  | [] => Eps
  | c :: r => Seq (Lit c) (lits r)
  end.

(** Character classes.  [\d] is taken on the ASCII digits, which is what
    [int_of_digits] reads; [\s] is [str.isspace]; the dot is anything but a
    line feed. *)
Definition digit : N -> bool := is_digit.
Definition space : N -> bool := is_space.
Definition nonspace (c : N) : bool := negb (is_space c).
Definition dot (c : N) : bool := negb (c =? 10).

Section Matcher.

(** [re.IGNORECASE]: a literal matches a character with the same simple
    lower case. *)
Variable ignorecase : bool.

Definition lit_matches (p c : N) : bool :=
  if ignorecase then to_lower p =? to_lower c else p =? c.

Section Continuation.

Variable k : pystr -> option captures.

(** One or more characters of a class, as many as possible first. *)
Fixpoint plus_loop (p : N -> bool) (s : pystr) : option captures :=
  match s with
  | [] => None
  | c :: r =>
      if p c then
        match plus_loop p r with
        | Some res => Some res
        | None => k r
        end
      else None
  end.

End Continuation.

(** [match_re r s caps k]: match [r] at the head of [s], then hand the rest
    of the input and the captures to [k]; [None] makes the matcher
    backtrack. *)
Fixpoint match_re (r : regex) (s : pystr) (caps : captures)
    (k : pystr -> captures -> option captures) : option captures :=
  match r with
  | Eps => k s caps
  | Lit p =>
      match s with
      | c :: s' => if lit_matches p c then k s' caps else None
      | [] => None
      end
  | Class p =>
      match s with
      | c :: s' => if p c then k s' caps else None
      | [] => None
      end
  | Plus p => plus_loop (fun s' => k s' caps) p s
  | Seq a b => match_re a s caps (fun s' caps' => match_re b s' caps' k)
  | Alt a b =>
      match match_re a s caps k with
      | Some res => Some res
      | None => match_re b s caps k
      end
  | Opt a =>
      match match_re a s caps k with
      | Some res => Some res
      | None => k s caps
      end
  | Group n a =>
      match_re a s caps
        (fun s' caps' =>
           k s' ((n, firstn (length s - length s') s) :: caps'))
  end.

(** [re.search]: the first position, from the left, where a match
    starts. *)
Fixpoint search (r : regex) (s : pystr) : option captures :=
  match match_re r s [] (fun _ caps => Some caps) with
  | Some caps => Some caps
  | None =>
      match s with
      | [] => None
      | _ :: s' => search r s'
      end
  end.

End Matcher.

End Re.

(* ===================================================================== *)
(** * class AIConverter                                                   *)
(* ===================================================================== *)

Module AIConverter.

Import PyStr SQLiteFlow Re.
Local Open Scope N_scope.

(** ** extract_weapon_info *)

(** One entry of a region's list: the dictionary with keys
    [weapon_type], [count] and [target_city]. *)
Record weapon := Weapon {
  weapon_type : pystr;
  w_count : Z;
  target_city : pystr
}.

(** The optional leading count [(?:(\d+)х?\s+)?] shared by both
    patterns. *)
Definition leading_count : regex :=
  Opt (Seq (Group 1 (Plus digit)) (Seq (Opt (Lit 1093)) (Plus space))).

(** [(?:(\d+)х?\s+)?(?:ГРУПИ?|Групи?)\s+КР\s+курсом\s+на\s+(.+)] *)
Definition group_kr_re : regex :=
  Seq leading_count
  (Seq (Alt (Seq (lits (u "ГРУП")) (Opt (lits (u "И"))))
            (Seq (lits (u "Груп")) (Opt (lits (u "и")))))
  (Seq (Plus space)
  (Seq (lits (u "КР"))
  (Seq (Plus space)
  (Seq (lits (u "курсом"))
  (Seq (Plus space)
  (Seq (lits (u "на"))
  (Seq (Plus space)
       (Group 2 (Plus dot)))))))))).

(** [(?:(\d+)х?\s+)?(\S+)\s+курсом\s+на\s+(.+)] *)
Definition standard_re : regex :=
  Seq leading_count
  (Seq (Group 2 (Plus nonspace))
  (Seq (Plus space)
  (Seq (lits (u "курсом"))
  (Seq (Plus space)
  (Seq (lits (u "на"))
  (Seq (Plus space)
       (Group 3 (Plus dot)))))))).

(** [int(count_str) if count_str else 1] *)
Definition count_of (count_str : option pystr) : Z :=
  match count_str with
  | Some (c :: r) => Z.of_N (int_of_digits (c :: r))
  | _ => 1%Z
  end.

(** The canonical token both patterns map the cruise-missile category
    to. *)
Definition X101 : pystr := u "Х101".

(** The dictionary [regions]: keys in insertion order. *)
Definition regions_dict := list (pystr * list weapon).

Fixpoint has_key (k : pystr) (d : regions_dict) : bool :=
  match d with
  | [] => false
  | (k', _) :: r => str_eqb k' k || has_key k r
  end.

(** [regions[k].append(w)] *)
Fixpoint append_to (k : pystr) (w : weapon) (d : regions_dict)
    : regions_dict :=
  match d with
  | [] => []
  | (k', ws) :: r =>
      if str_eqb k' k then (k', ws ++ [w]) :: r
      else (k', ws) :: append_to k w r
  end.

(** [regions[k]], the empty list for a key that is absent. *)
Fixpoint events_of (k : pystr) (d : regions_dict) : list weapon :=
  match d with
  | [] => []
  | (k', ws) :: r => if str_eqb k' k then ws else events_of k r
  end.

(** The loop state: the dictionary and [current_region]. *)
Record parser_state := ParserState {
  regions_of : regions_dict;
  current_region : option pystr
}.

(** What an item line appends, if anything. *)
Definition parse_item (line : pystr) : option weapon :=
  match search true group_kr_re line with
  | Some caps =>
      match group 2 caps with
      | Some city =>
          let groups_count := count_of (group 1 caps) in
          let total_count := (groups_count * 2)%Z in
          Some (Weapon X101 total_count (strip city))
      | None => None
      end
  | None =>
      match search false standard_re line with
      | Some caps =>
          match group 2 caps, group 3 caps with
          | Some wt, Some city =>
              let wt' := if str_eqb (upper wt) (u "КР") then X101 else wt in
              Some (Weapon wt' (count_of (group 1 caps)) (strip city))
          | _, _ => None
          end
      | None => None
      end
  end.

(** The body of the [for line in lines] loop. *)
Definition parse_line (st : parser_state) (raw : pystr) : parser_state :=
  let line := strip raw in
  match line with
  | [] => st
  | _ =>
      if endswith_char 58 line then
        let region := remove_char 58 line in
        ParserState
          (if has_key region (regions_of st) then regions_of st
           else regions_of st ++ [(region, [])])
          (Some region)
      else
        match current_region st with
        | Some (c :: r) =>
            match parse_item line with
            | Some w =>
                ParserState (append_to (c :: r) w (regions_of st))
                            (current_region st)
            | None => st
            end
        | _ => st
        end
  end.

Definition extract_lines (lines : list pystr) : parser_state :=
  fold_left parse_line lines (ParserState [] None).

Definition extract_weapon_info (text : pystr) : regions_dict :=
  regions_of (extract_lines (split_on 10 (strip text))).

(** ** _rate_limited_api_call

    The model service and the random generator are outside the program:
    [outcome n] is what [generate_content] does at attempt [n] (a reply
    with its text, or an exception with its message) and [random n] is the
    draw of [random.random()] made at attempt [n].  Sleeping and calling
    the service are recorded as effects, in order. *)

Inductive attempt_outcome :=
| Replied (text : pystr)
| Raised (error_message : pystr).

Inductive effect :=
| GenerateContent (attempt : nat)
| Sleep (seconds : Q).

(** [random.uniform(a, b)] is [a + (b - a) * random()]. *)
Definition uniform (a b r : Q) : Q := a + (b - a) * r.

Definition pow2 (n : nat) : Q := inject_Z (2 ^ Z.of_nat n).

Definition is_quota (error_message : pystr) : bool :=
  contains (u "quota") (lower error_message)
  || contains (u "429") error_message.

Definition is_rate_limit (error_message : pystr) : bool :=
  contains (u "rate limit") (lower error_message).

Definition with_effects {A} (es : list effect) (r : A * list effect)
    : A * list effect :=
  (fst r, es ++ snd r).

Section Client.

Variable max_retries : nat.
Variable api_delay : Q.
Variable outcome : nat -> attempt_outcome.
Variable random : nat -> Q.

(** [attempt < self.max_retries - 1] *)
Definition not_last (attempt : nat) : bool :=
  Nat.ltb attempt (max_retries - 1).

(** The [for attempt in range(self.max_retries)] loop from [attempt] on,
    with [remaining] iterations left. *)
Fixpoint attempts (remaining attempt : nat) : option pystr * list effect :=
  match remaining with
  | O => (None, [])
  | S remaining' =>
      let next := attempts remaining' (S attempt) in
      match outcome attempt with
      | Replied (c :: t) =>
          (Some (strip (c :: t)), [GenerateContent attempt])
      | Replied [] => with_effects [GenerateContent attempt] next
      | Raised error_message =>
          if is_quota error_message then
            if not_last attempt then
              let backoff_time :=
                (pow2 attempt * 10 + uniform 1 5 (random attempt))%Q in
              with_effects [GenerateContent attempt; Sleep backoff_time] next
            else (None, [GenerateContent attempt])
          else if is_rate_limit error_message then
            if not_last attempt then
              let backoff_time :=
                (api_delay * pow2 attempt + uniform 1 3 (random attempt))%Q in
              with_effects [GenerateContent attempt; Sleep backoff_time] next
            else (None, [GenerateContent attempt])
          else
            if not_last attempt then
              with_effects
                [GenerateContent attempt;
                 Sleep (1 + uniform (1 # 2) (3 # 2) (random attempt))%Q] next
            else with_effects [GenerateContent attempt] next
      end
  end.

(** The whole call: the throttle, then the attempts.  The result is the
    stripped text, or [None]. *)
Definition _rate_limited_api_call (time_since_last_call : Q)
    : option pystr * list effect :=
  let throttle :=
    if Qle_bool api_delay time_since_last_call then []
    else [Sleep (api_delay - time_since_last_call)%Q] in
  with_effects throttle (attempts max_retries 0).

End Client.

(** ** get_region_coordinates_from_ai *)

(** The parsed reply of the service.  A JSON object is a record of
    optional fields, [None] for a key that is absent; numbers and strings
    are taken at the types the prompt asks for. *)
Record json_coordinates := JsonCoordinates {
  j_latitude : option Q;
  j_longitude : option Q
}.

Record target := Target {
  t_city : option pystr;
  t_weapon_type : option pystr;
  t_count : option Z;
  t_coordinates : option json_coordinates;
  t_confidence : option Q;
  t_source : option pystr
}.

Record ai_result := AiResult {
  region_coordinates : option json_coordinates;
  region_confidence : option Q;
  ai_targets : option (list target)
}.

(** What one call of the client ends in: [None] after all retries, text
    that [json.loads] rejects, or a parsed object. *)
Inductive api_reply :=
| NoResponse
| NotJson
| Json (r : ai_result).

(** The payload [input_data] of the prompt. *)
Record request := Request {
  req_region : pystr;
  req_weapons : list weapon
}.

(** The returned dictionary: [{"error": e}], or region, targets and
    possibly [coordinates_rn]. *)
Inductive coords_data :=
| Error (e : pystr)
| Result (region : pystr) (targets : list target)
         (coordinates_rn : option json_coordinates).

Definition Gemini : pystr := u "Gemini".

Definition get_default (x : option Q) : Q :=
  match x with Some q => q | None => (8 # 10)%Q end.

Definition of_fact (f : fact) : json_coordinates :=
  JsonCoordinates (Some (latitude (f_coordinates f)))
                  (Some (longitude (f_coordinates f))).

(** The first loop: cache hits become targets, misses are collected. *)
Fixpoint lookup_cities (d : db) (region_name : pystr)
    (weapons_list : list weapon) : list target * list weapon :=
  match weapons_list with
  | [] => ([], [])
  | weapon :: rest =>
      let '(targets, weapons_for_ai) := lookup_cities d region_name rest in
      let city_name := target_city weapon in
      match get_city_coordinates d city_name region_name with
      | Some db_coords =>
          (Target (Some city_name) (Some (weapon_type weapon))
                  (Some (w_count weapon)) (Some (of_fact db_coords))
                  (Some (f_confidence db_coords)) (Some (f_source db_coords))
             :: targets, weapons_for_ai)
      | None => (targets, weapon :: weapons_for_ai)
      end
  end.

(** The loop over the returned targets.  A missing key raises; what was
    written before stays written.  The flag is [false] when it raised. *)
Fixpoint save_targets (d : db) (region_name : pystr) (ts : list target)
    : db * bool :=
  match ts with
  | [] => (d, true)
  | t :: rest =>
      match t_coordinates t with
      | Some coords =>
          match t_city t, j_latitude coords, j_longitude coords with
          | Some city, Some lat, Some lon =>
              let d' :=
                snd (save_city_coordinates d city region_name lat lon
                       (get_default (t_confidence t)) Gemini) in
              save_targets d' region_name rest
          | _, _, _ => (d, false)
          end
      | None => (d, false)
      end
  end.

Section Orchestrator.

(** The enrichment client, as a function of the request it is sent. *)
Variable enrich : request -> api_reply.

(** The method returns its dictionary; the database after it and the
    requests it sent are returned with it. *)
Definition get_region_coordinates_from_ai (d : db) (region_name : pystr)
    (weapons_list : list weapon) : coords_data * db * list request :=
  let region_coords :=
    option_map of_fact (get_region_coordinates d region_name) in
  let '(targets, weapons_for_ai) := lookup_cities d region_name weapons_list in
  let call :=
    match weapons_for_ai, region_coords with
    | [], Some _ => false
    | _, _ => true
    end in
  if call then
    let input_data := Request region_name weapons_for_ai in
    match enrich input_data with
    | NoResponse => (Error (u "api_error"), d, [input_data])
    | NotJson => (Error (u "json_parse_error"), d, [input_data])
    | Json ai =>
        let saved_region :=
          match region_coordinates ai, region_coords with
          | Some reg_coords, None =>
              match j_latitude reg_coords, j_longitude reg_coords with
              | Some lat, Some lon =>
                  Some (snd (save_region_coordinates d region_name lat lon
                               (get_default (region_confidence ai)) Gemini),
                        Some reg_coords)
              | _, _ => None
              end
          | _, _ => Some (d, region_coords)
          end in
        match saved_region with
        | None => (Error (u "processing_error"), d, [input_data])
        | Some (d1, region_coords') =>
            let returned :=
              match ai_targets ai with Some ts => ts | None => [] end in
            let '(d2, ok) := save_targets d1 region_name returned in
            if ok
            then (Result region_name (targets ++ returned) region_coords',
                  d2, [input_data])
            else (Error (u "processing_error"), d2, [input_data])
        end
    end
  else (Result region_name targets region_coords, d, []).

(** ** _process_single_region *)

(** One entry of a region's [targets] in the output. *)
Record resolved_target := ResolvedTarget {
  rt_city : pystr;
  rt_weapon_type : pystr;
  rt_count : Z;
  rt_latitude : Q;
  rt_longitude : Q;
  rt_confidence : Q;
  rt_source : pystr
}.

Record region_data := RegionData {
  rd_region : pystr;
  rd_targets : list resolved_target;
  total_processed : nat;
  tokens_used : nat;
  weapons_count : Z;
  rd_coordinates_rn : option json_coordinates
}.

(** Reading one target; [None] is the [KeyError] of a missing key. *)
Definition resolve_target (t : target) : option resolved_target :=
  match t_city t, t_weapon_type t, t_count t, t_coordinates t with
  | Some city, Some wt, Some n, Some coords =>
      match j_latitude coords, j_longitude coords with
      | Some lat, Some lon =>
          Some (ResolvedTarget city wt n lat lon
                  (get_default (t_confidence t))
                  (match t_source t with
                   | Some src => src
                   | None => u "AI_generated"
                   end))
      | _, _ => None
      end
  | _, _, _, _ => None
  end.

Fixpoint resolve_targets (ts : list target)
    : option (list resolved_target * Z) :=
  match ts with
  | [] => Some ([], 0%Z)
  | t :: rest =>
      match resolve_target t with
      | None => None
      | Some rt =>
          match resolve_targets rest with
          | None => None
          | Some (rts, n) => Some (rt :: rts, (rt_count rt + n)%Z)
          end
      end
  end.

(** The method: [None] for a region that failed, whatever the failure. *)
Definition _process_single_region (d : db) (region_name : pystr)
    (weapons_list : list weapon) : option region_data * db * list request :=
  let '(coords_data, d', sent) :=
    get_region_coordinates_from_ai d region_name weapons_list in
  match coords_data with
  | Error _ => (None, d', sent)
  | Result _ targets coordinates_rn =>
      match resolve_targets targets with
      | None => (None, d', sent)
      | Some (region_targets, region_weapons_count) =>
          (Some (RegionData region_name region_targets
                   (length region_targets) 100 region_weapons_count
                   coordinates_rn),
           d', sent)
      end
  end.

(** ** proccess_data *)

(** The accumulators of the collecting loop. *)
Record totals := Totals {
  regions_data : list region_data;
  total_weapons_count : Z;
  all_weapon_types : list pystr;
  total_cities : nat
}.

(** [all_weapon_types.add(x)] *)
Definition set_add (x : pystr) (l : list pystr) : list pystr :=
  if existsb (str_eqb x) l then l else l ++ [x].

(** The body that both branches of [proccess_data] run on the outcome of
    one region. *)
Definition collect_one (acc : totals) (outcome : option region_data)
    : totals :=
  match outcome with
  | Some region_data =>
      Totals (regions_data acc ++ [region_data])
             (total_weapons_count acc + weapons_count region_data)%Z
             (fold_left (fun types t => set_add (rt_weapon_type t) types)
                        (rd_targets region_data) (all_weapon_types acc))
             (total_cities acc + length (rd_targets region_data))
  | None => acc
  end.

Definition collect (outcomes : list (option region_data)) : totals :=
  fold_left collect_one outcomes (Totals [] 0%Z [] 0%nat).

(** The returned dictionary. *)
Record run_result := RunResult {
  regions : list region_data;
  total_regions : nat;
  rr_total_cities : nat;
  total_weapons_used : list pystr;
  rr_total_weapons_count : Z;
  total_tokens_used : nat;
  processing_mode : pystr;
  status : pystr;
  database_stats : stats
}.

Definition make_result (acc : totals) (mode : pystr) (d : db)
    : run_result :=
  RunResult (regions_data acc) (length (regions_data acc))
            (total_cities acc) (all_weapon_types acc)
            (total_weapons_count acc)
            (fold_right Nat.add 0%nat (map tokens_used (regions_data acc)))
            mode (u "success") (get_database_stats d).

(** The regions one after the other, each on the database the previous
    one left: the outcomes in order, the final database, and the requests
    sent. *)
Fixpoint process_regions (d : db) (items : regions_dict)
    : list (option region_data) * db * list request :=
  match items with
  | [] => ([], d, [])
  | (region_name, weapons_list) :: rest =>
      let '(outcome, d1, sent1) :=
        _process_single_region d region_name weapons_list in
      let '(outcomes, d2, sent2) := process_regions d1 rest in
      (outcome :: outcomes, d2, sent1 ++ sent2)
  end.

(** [proccess_data(data, max_workers=1)]: the sequential branch. *)
Definition proccess_data_sequential (d : db) (data : pystr)
    : run_result * db :=
  let regions_weapons := extract_weapon_info data in
  let '(outcomes, d', _) := process_regions d regions_weapons in
  (make_result (collect outcomes) (u "sequential") d', d').

End Orchestrator.

(** [proccess_data] with [max_workers] other than 1: the same collecting
    loop runs over the futures as they complete.  [completed] is what they
    returned, in completion order, and [d] the database at the end. *)
Definition proccess_data_parallel (completed : list (option region_data))
    (d : db) : run_result :=
  make_result (collect completed) (u "parallel") d.

End AIConverter.

(** A closed conjunction of equations between values of the model is
    settled by running the model. *)
Ltac evaluate :=
  intros;
  repeat match goal with |- _ /\ _ => split end;
  vm_compute; reflexivity.

(* ===================================================================== *)
(** * Properties of the coordinate cache                                  *)
(* ===================================================================== *)

Module StrFacts.

Import PyStr.
Local Open Scope N_scope.

Lemma str_eqb_eq a b : str_eqb a b = true <-> a = b.
Proof.
  unfold str_eqb. destruct (list_eq_dec N.eq_dec a b); split; congruence.
Qed.

Lemma str_eqb_refl a : str_eqb a a = true.
Proof. apply str_eqb_eq. reflexivity. Qed.

Lemma str_eqb_neq a b : str_eqb a b = false <-> a <> b.
Proof.
  unfold str_eqb. destruct (list_eq_dec N.eq_dec a b); split; congruence.
Qed.

(** *** The case tables on ASCII and Cyrillic characters

    On these characters lowering and title-casing map one character to one
    character, keep its being cased and its being white space, and are
    stable under each other.  The table is finite; it is checked entry by
    entry. *)

Definition char_ok (c : N) : bool :=
  if plain c then
    str_eqb (lower_full c) [to_lower c]
    && (to_lower (to_lower c) =? to_lower c)
    && (to_upper (to_upper c) =? to_upper c)
    && (to_lower (to_upper c) =? to_lower c)
    && (to_upper (to_lower c) =? to_upper c)
    && Bool.eqb (is_cased (to_lower c)) (is_cased c)
    && Bool.eqb (is_cased (to_upper c)) (is_cased c)
    && Bool.eqb (is_space (to_lower c)) (is_space c)
    && Bool.eqb (is_space (to_upper c)) (is_space c)
    && plain (to_lower c)
    && plain (to_upper c)
  else true.

(** The character [str.title] writes for [c]. *)
Definition tchar (previous_is_cased : bool) (c : N) : N :=
  if previous_is_cased then to_lower c else to_upper c.

(** A string without white space at either end. *)
Definition trimmed (s : pystr) : Prop :=
  match s with [] => True | c :: _ => is_space c = false end
  /\ match rev s with [] => True | c :: _ => is_space c = false end.

Lemma table_checked : forallb char_ok (map N.of_nat (seq 0 1280)) = true.
Proof. vm_compute. reflexivity. Qed.

Lemma plain_char_ok c : plain c = true -> char_ok c = true.
Proof.
  intros H.
  assert (Hlt : c < 1280).
  { unfold plain, between in H.
    apply orb_true_iff in H. destruct H as [H | H].
    - apply N.ltb_lt in H. lia.
    - apply andb_true_iff in H. destruct H as [_ H].
      apply N.leb_le in H. lia. }
  pose proof table_checked as T. rewrite forallb_forall in T.
  apply T. apply in_map_iff. exists (N.to_nat c). split.
  - apply N2Nat.id.
  - apply in_seq. lia.
Qed.

Record char_facts (c : N) : Prop := CharFacts {
  cf_lower_full : lower_full c = [to_lower c];
  cf_ll : to_lower (to_lower c) = to_lower c;
  cf_uu : to_upper (to_upper c) = to_upper c;
  cf_lu : to_lower (to_upper c) = to_lower c;
  cf_ul : to_upper (to_lower c) = to_upper c;
  cf_cased_l : is_cased (to_lower c) = is_cased c;
  cf_cased_u : is_cased (to_upper c) = is_cased c;
  cf_space_l : is_space (to_lower c) = is_space c;
  cf_space_u : is_space (to_upper c) = is_space c;
  cf_plain_l : plain (to_lower c) = true;
  cf_plain_u : plain (to_upper c) = true
}.

Lemma plain_facts c : plain c = true -> char_facts c.
Proof.
  intros H. pose proof (plain_char_ok c H) as K.
  unfold char_ok in K. rewrite H in K.
  repeat (apply andb_true_iff in K; destruct K as [K ?]).
  constructor;
    repeat match goal with
           | h : str_eqb _ _ = true |- _ => apply str_eqb_eq in h
           | h : (_ =? _) = true |- _ => apply N.eqb_eq in h
           | h : Bool.eqb _ _ = true |- _ => apply Bool.eqb_prop in h
           end; assumption.
Qed.

Lemma tchar_facts b c :
  plain c = true ->
  plain (tchar b c) = true
  /\ is_cased (tchar b c) = is_cased c
  /\ is_space (tchar b c) = is_space c
  /\ to_lower (tchar b c) = to_lower c
  /\ (forall b', tchar b' (tchar b' c) = tchar b' c).
Proof.
  intros H. destruct (plain_facts c H). unfold tchar.
  destruct b; repeat split; auto; intros []; auto.
Qed.

Lemma do_title_plain b c r :
  plain c = true ->
  do_title b (c :: r) = tchar b c :: do_title (is_cased c) r.
Proof.
  intros H. destruct (plain_facts c H). simpl. unfold tchar, title_full.
  destruct b; [rewrite cf_lower_full0|]; reflexivity.
Qed.

Lemma do_title_plain_all b s :
  Forall (fun c => plain c = true) s ->
  Forall (fun c => plain c = true) (do_title b s).
Proof.
  intros H. revert b. induction H as [|c r Hc Hr IH]; intros b.
  - constructor.
  - rewrite do_title_plain by assumption. constructor.
    + now apply tchar_facts.
    + apply IH.
Qed.

(** [title] is idempotent on such strings. *)
Lemma do_title_idem b s :
  Forall (fun c => plain c = true) s ->
  do_title b (do_title b s) = do_title b s.
Proof.
  intros H. revert b. induction H as [|c r Hc Hr IH]; intros b; auto.
  rewrite do_title_plain by assumption.
  destruct (tchar_facts b c Hc) as (Hp & Hcased & _ & _ & Hid).
  rewrite do_title_plain by assumption.
  now rewrite Hid, Hcased, IH.
Qed.

(** Lowering forgets that a string was title-cased. *)
Lemma lower_do_title b s :
  Forall (fun c => plain c = true) s ->
  lower (do_title b s) = lower s.
Proof.
  intros H. revert b. induction H as [|c r Hc Hr IH]; intros b; auto.
  rewrite do_title_plain by assumption.
  destruct (tchar_facts b c Hc) as (Hp & _ & _ & Hl & _).
  unfold lower in *. simpl. rewrite IH.
  destruct (plain_facts _ Hp). destruct (plain_facts _ Hc).
  now rewrite cf_lower_full0, cf_lower_full1, Hl.
Qed.

(** *** strip *)

Lemma lstrip_head s :
  match lstrip s with [] => True | c :: _ => is_space c = false end.
Proof.
  induction s as [|c r IH]; simpl; auto.
  destruct (is_space c) eqn:E; auto.
Qed.

Lemma lstrip_snoc s c :
  is_space c = false -> lstrip (s ++ [c]) = lstrip s ++ [c].
Proof.
  intros H. induction s as [|a r IH]; simpl.
  - now rewrite H.
  - destruct (is_space a); auto.
Qed.

Lemma lstrip_fixed s :
  match s with [] => True | c :: _ => is_space c = false end ->
  lstrip s = s.
Proof. destruct s as [|c r]; simpl; auto. now intros ->. Qed.

Lemma strip_trimmed s : trimmed (strip s).
Proof.
  unfold strip, rstrip, trimmed. rewrite rev_involutive. split.
  - pose proof (lstrip_head s) as H.
    destruct (lstrip s) as [|c r]; simpl; auto.
    rewrite lstrip_snoc by assumption.
    rewrite rev_app_distr. simpl. assumption.
  - apply lstrip_head.
Qed.

Lemma trimmed_strip s : trimmed s -> strip s = s.
Proof.
  intros [H1 H2]. unfold strip, rstrip.
  rewrite (lstrip_fixed s H1), (lstrip_fixed (rev s) H2).
  apply rev_involutive.
Qed.

Lemma lstrip_plain s :
  Forall (fun c => plain c = true) s ->
  Forall (fun c => plain c = true) (lstrip s).
Proof.
  induction 1 as [|c r Hc Hr IH]; simpl; auto.
  destruct (is_space c); auto.
Qed.

Lemma strip_plain s :
  Forall (fun c => plain c = true) s ->
  Forall (fun c => plain c = true) (strip s).
Proof.
  intros H. unfold strip, rstrip.
  apply Forall_rev, lstrip_plain, Forall_rev, lstrip_plain, H.
Qed.

(** [title] keeps a trimmed string trimmed. *)
Lemma do_title_app b s t :
  exists b', do_title b (s ++ t) = do_title b s ++ do_title b' t.
Proof.
  revert b. induction s as [|c r IH]; intros b; simpl.
  - now exists b.
  - destruct (IH (is_cased c)) as [b' E]. exists b'.
    now rewrite E, app_assoc.
Qed.

Lemma do_title_trimmed b s :
  Forall (fun c => plain c = true) s ->
  trimmed s -> trimmed (do_title b s).
Proof.
  intros Hp [H1 H2]. split.
  - destruct s as [|c r]; simpl; auto.
    inversion Hp; subst.
    change (match do_title b (c :: r) with
            | [] => True | c0 :: _ => is_space c0 = false end).
    rewrite do_title_plain by assumption.
    destruct (tchar_facts b c H3) as (_ & _ & Hs & _). now rewrite Hs.
  - destruct (rev s) as [|c r] eqn:E; simpl.
    + apply (f_equal (@rev N)) in E. rewrite rev_involutive in E.
      subst s. simpl. exact I.
    + apply (f_equal (@rev N)) in E. rewrite rev_involutive in E.
      simpl in E. subst s.
      destruct (do_title_app b (rev r) [c]) as [b' Eq]. rewrite Eq.
      apply Forall_app in Hp. destruct Hp as [_ Hc].
      inversion Hc; subst.
      rewrite do_title_plain by assumption. simpl.
      rewrite rev_app_distr. simpl.
      destruct (tchar_facts b' c H3) as (_ & _ & Hs & _). now rewrite Hs.
Qed.

End StrFacts.

Module CacheSpec.

Import PyStr SQLiteFlow StrFacts.
Local Open Scope Q_scope.

(** *** The validity box *)

Lemma validate_in_box lat lon :
  _validate_ukraine_coordinates lat lon = true <-> in_box lat lon.
Proof.
  unfold _validate_ukraine_coordinates, in_box.
  rewrite !andb_true_iff, !Qle_bool_iff. tauto.
Qed.

Lemma validate_outside lat lon :
  outside_box lat lon -> _validate_ukraine_coordinates lat lon = false.
Proof.
  intros H. destruct (_validate_ukraine_coordinates lat lon) eqn:E; auto.
  apply validate_in_box in E. destruct E as [[H1 H2] [H3 H4]].
  destruct H as [H | [H | [H | H]]];
    [ apply Qlt_not_le in H | apply Qlt_not_le in H
    | apply Qlt_not_le in H | apply Qlt_not_le in H ]; contradiction.
Qed.

(** C3. For every latitude/longitude pair outside the box 44.0-52.5 by
    22.0-40.5, both [save_city_coordinates] and [save_region_coordinates]
    return [False] and leave the database as it was. *)
Theorem bounding_box_rejection (d : db) (city region : pystr)
    (lat lon confidence : Q) (source : pystr) :
  outside_box lat lon ->
  save_city_coordinates d city region lat lon confidence source = (false, d)
  /\ save_region_coordinates d region lat lon confidence source = (false, d).
Proof.
  intros H. apply validate_outside in H.
  unfold save_city_coordinates, save_region_coordinates.
  rewrite H. split; reflexivity.
Qed.

Lemma bounding_box_rejection_witness :
  outside_box 60 30
  /\ save_city_coordinates empty_db (u "Київ") (u "Київщина") 60 30 (8 # 10)
       (u "Gemini") = (false, empty_db)
  /\ save_region_coordinates empty_db (u "Київщина") 60 30 (8 # 10)
       (u "Gemini") = (false, empty_db).
Proof.
  split.
  - right; left; reflexivity.
  - apply (bounding_box_rejection empty_db (u "Київ") (u "Київщина")
             60 30 (8 # 10) (u "Gemini")).
    right; left; reflexivity.
Defined.

(** *** Writing a locality twice *)

Section PutLocality.

Variables (d : db) (city region : pystr).
Variables (lat lon confidence : Q) (source : pystr).

Let key := city_key city (normalize_region_name region).

Lemma save_city_valid :
  in_box lat lon ->
  save_city_coordinates d city region lat lon confidence source =
  (true,
   let id := next_id (cities_seq d) (map c_id (cities d)) in
   Db (filter (fun r => negb (key r)) (cities d)
         ++ [CityRow id city (normalize_region_name region) lat lon
               confidence source])
      id (regions d) (regions_seq d)).
Proof.
  intros H. apply validate_in_box in H.
  unfold save_city_coordinates. rewrite H. reflexivity.
Qed.

End PutLocality.

Lemma city_key_refl city region id lat lon c s :
  city_key city region (CityRow id city region lat lon c s) = true.
Proof. unfold city_key; simpl. now rewrite !str_eqb_refl. Qed.

Lemma filter_filter_neg {A} (f : A -> bool) (l : list A) :
  filter (fun r => negb (f r)) (filter (fun r => negb (f r)) l)
  = filter (fun r => negb (f r)) l.
Proof.
  induction l as [|a l IH]; simpl; auto.
  destruct (f a) eqn:E; simpl; rewrite ?E; simpl; now rewrite IH.
Qed.

Lemma find_filter_neg {A} (f : A -> bool) (l : list A) :
  find f (filter (fun r => negb (f r)) l) = None.
Proof.
  induction l as [|a l IH]; simpl; auto.
  destruct (f a) eqn:E; simpl; rewrite ?E; auto.
Qed.

Lemma find_app_none {A} (f : A -> bool) (l l' : list A) :
  find f l = None -> find f (l ++ l') = find f l'.
Proof.
  induction l as [|a l IH]; simpl; auto.
  destruct (f a); [discriminate | auto].
Qed.

(** Both getters and the statistics read the values of the rows only, not
    their rowids. *)
Lemma get_city_values d1 d2 :
  map city_values (cities d1) = map city_values (cities d2) ->
  forall c r, get_city_coordinates d1 c r = get_city_coordinates d2 c r.
Proof.
  intros H c r. unfold get_city_coordinates.
  generalize dependent (cities d2). generalize (cities d1).
  induction l as [|x l IH]; intros [|y l'] H; simpl in *; try discriminate; auto.
  unfold city_values in H at 1 3.
  injection H as H1 H2 H3 H4 H5 H6 Hl.
  unfold city_key at 1 3. rewrite H1, H2.
  destruct (str_eqb (c_city_name y) c
            && str_eqb (c_region_name y) (normalize_region_name r)).
  - now rewrite H3, H4, H5, H6.
  - now apply IH.
Qed.

Lemma stats_values d1 d2 :
  map city_values (cities d1) = map city_values (cities d2) ->
  regions d1 = regions d2 ->
  get_database_stats d1 = get_database_stats d2.
Proof.
  intros H Hr. unfold get_database_stats.
  assert (Hreg : map c_region_name (cities d1) = map c_region_name (cities d2)).
  { transitivity (map (fun v => snd (fst (fst (fst (fst v)))))
                      (map city_values (cities d1))).
    - rewrite map_map. reflexivity.
    - rewrite H, map_map. reflexivity. }
  assert (Hsrc : map c_source (cities d1) = map c_source (cities d2)).
  { transitivity (map (fun v => snd v) (map city_values (cities d1))).
    - rewrite map_map. reflexivity.
    - rewrite H, map_map. reflexivity. }
  assert (Hlen : length (cities d1) = length (cities d2)).
  { rewrite <- (length_map city_values (cities d1)), H. apply length_map. }
  now rewrite Hreg, Hsrc, Hlen, Hr.
Qed.

(** After a successful write the getter returns what was written. *)
Lemma get_after_save d city region lat lon confidence source :
  in_box lat lon ->
  get_city_coordinates
    (snd (save_city_coordinates d city region lat lon confidence source))
    city region
  = Some (Fact (Coordinates lat lon) confidence (database_ source)).
Proof.
  intros H. rewrite save_city_valid by assumption. simpl.
  unfold get_city_coordinates. simpl.
  rewrite find_app_none by apply find_filter_neg.
  simpl. now rewrite city_key_refl.
Qed.

(** The second write replaces the row of the first, whatever the rowids. *)
Lemma upsert_twice cs city nr id1 id2 lat lon c src :
  map city_values
    (filter (fun r => negb (city_key city nr r))
       (filter (fun r => negb (city_key city nr r)) cs
        ++ [CityRow id1 city nr lat lon c src])
     ++ [CityRow id2 city nr lat lon c src])
  = map city_values
      (filter (fun r => negb (city_key city nr r)) cs
       ++ [CityRow id1 city nr lat lon c src]).
Proof.
  rewrite filter_app, filter_filter_neg. cbn [filter].
  rewrite city_key_refl. cbn [negb]. rewrite app_nil_r.
  rewrite !map_app. reflexivity.
Qed.



(** *** Normalizing twice *)

Lemma dict_get_values (m : list (pystr * pystr)) k v :
  dict_get m k = Some v -> In v (map snd m).
Proof.
  induction m as [|[k' v'] m IH]; cbn [dict_get map snd In].
  - discriminate.
  - destruct (str_eqb k' k).
    + intros E. left. congruence.
    + intros E. right. exact (IH E).
Qed.

Lemma corrections_values k v :
  dict_get region_corrections k = Some v -> v = u "хмельниччина".
Proof.
  intros H. apply dict_get_values in H.
  unfold region_corrections in H. cbn [map snd In] in H.
  destruct H as [<- | [<- | []]]; reflexivity.
Qed.

(** The claim of C9 as it is stated fails: the lower case of U+0130 is two
    code points, the second of which is not cased, so that a second
    [title] capitalises the letter after it. *)
Lemma normalize_twice_differs :
  normalize_region_name (u "aİb") = [65; 105; 775; 98]%N
  /\ normalize_region_name (normalize_region_name (u "aİb"))
     = [65; 105; 775; 66]%N
  /\ normalize_region_name (normalize_region_name (u "aİb"))
     <> normalize_region_name (u "aİb").
Proof.
  split; [vm_compute; reflexivity|].
  split; [vm_compute; reflexivity|].
  vm_compute. discriminate.
Qed.

(** C9 (amended). On strings of ASCII and Cyrillic characters
    [normalize_region_name] is idempotent: a normalized name is returned
    unchanged. *)
Theorem normalize_idempotent (s : pystr) :
  Forall (fun c => plain c = true) s ->
  normalize_region_name (normalize_region_name s) = normalize_region_name s.
Proof.
  intros Hp. unfold normalize_region_name at 2 3. unfold normalize_with.
  destruct (dict_get region_corrections (lower (strip s))) as [v|] eqn:E.
  - apply corrections_values in E. subst v. vm_compute. reflexivity.
  - pose proof (strip_plain s Hp) as Hps.
    pose proof (do_title_trimmed false (strip s) Hps (strip_trimmed s)) as Ht.
    fold (title (strip s)) in Ht.
    unfold normalize_region_name, normalize_with.
    rewrite (trimmed_strip _ Ht).
    unfold title at 1 2. rewrite lower_do_title by assumption.
    rewrite E. unfold title. now apply do_title_idem.
Qed.

Lemma normalize_idempotent_witness :
  Forall (fun c => plain c = true) (u "  київська ОБЛАСТЬ ")
  /\ normalize_region_name (u "  київська ОБЛАСТЬ ") = u "Київська Область"
  /\ normalize_region_name (normalize_region_name (u "  київська ОБЛАСТЬ "))
     = normalize_region_name (u "  київська ОБЛАСТЬ ").
Proof.
  assert (H : Forall (fun c => plain c = true) (u "  київська ОБЛАСТЬ ")).
  { vm_compute. repeat constructor. }
  split; [exact H|].
  split; [vm_compute; reflexivity|].
  exact (normalize_idempotent (u "  київська ОБЛАСТЬ ") H).
Defined.

(** *** Looking a region up *)

(** The lookup compares with ASCII letters folded, and nothing else. *)
Lemma get_region_ascii_fold (d : db) (a b : pystr) :
  sql_lower (strip a) = sql_lower (strip b) ->
  get_region_coordinates d a = get_region_coordinates d b.
Proof.
  intros H. unfold get_region_coordinates, region_ci. now rewrite H.
Qed.

(** The example of the specification, in ASCII. *)
Lemma get_region_kyiv_oblast :
  let d :=
    snd (save_region_coordinates empty_db (u "Kyiv Oblast") (504 # 10)
           (305 # 10) (8 # 10) (u "Gemini")) in
  get_region_coordinates d (u "kyiv oblast")
  = get_region_coordinates d (u "Kyiv Oblast")
  /\ get_region_coordinates d (u "Kyiv Oblast")
     = Some (Fact (Coordinates (504 # 10) (305 # 10)) (8 # 10)
                  (u "database_Gemini")).
Proof. split; vm_compute; reflexivity. Qed.

(** C4. The write corrects a listed misspelling, the lookup does not:
    after [save_region_coordinates] of the misspelt name (stored as the
    corrected, title-cased name) [get_region_coordinates] of the very same
    spelling finds nothing; nor does the lower-case Cyrillic spelling,
    which SQL [LOWER] does not fold onto the stored one. *)
Theorem misspelt_region_saved_but_not_found :
  let put :=
    save_region_coordinates empty_db (u "хмельничена") (494 # 10) 27
      (8 # 10) (u "Gemini") in
  fst put = true
  /\ map r_region_name (regions (snd put)) = [u "Хмельниччина"]
  /\ get_region_coordinates (snd put) (u "хмельничена") = None
  /\ get_region_coordinates (snd put) (u "хмельниччина") = None
  /\ get_region_coordinates (snd put) (u "Хмельниччина")
     = Some (Fact (Coordinates (494 # 10) 27) (8 # 10)
                  (u "database_Gemini")).
Proof. evaluate. Qed.

(** *** Reconciling duplicates *)

(** Where the row to keep is the later one and no row holds its normalized
    name yet, the method does what its comments say. *)
Lemma reconcile_two_spellings :
  let d :=
    Db [] 0
       [RegionRow 1 (u "kyiv oblast") (504 # 10) (305 # 10) (8 # 10) (u "AI");
        RegionRow 2 (u "KYIV OBLAST") (505 # 10) (306 # 10) (8 # 10) (u "AI")]
       2 in
  clean_region_duplicates d
  = (1%nat,
     Db [] 0
        [RegionRow 2 (u "Kyiv Oblast") (505 # 10) (306 # 10) (8 # 10)
           (u "AI")] 2).
Proof. vm_compute. reflexivity. Qed.

(** C5. With the rows (1, "Kyiv Oblast") and (2, "kyiv oblast") the
    method renames row 2 to the normalized name while row 1 still holds
    it; the UNIQUE constraint raises, the transaction is rolled back and 0
    is returned: both rows stay, and the invariant of one RegionFact per
    case-insensitive name does not hold afterwards. *)
Theorem reconcile_name_clash :
  let d :=
    Db [] 0
       [RegionRow 1 (u "Kyiv Oblast") (504 # 10) (305 # 10) (8 # 10) (u "AI");
        RegionRow 2 (u "kyiv oblast") (505 # 10) (306 # 10) (8 # 10) (u "AI")]
       2 in
  clean_region_duplicates d = (0%nat, d)
  /\ map count (select_duplicates (regions d)) = [2%nat]
  /\ ~ one_fact_per_name (snd (clean_region_duplicates d)).
Proof.
  split; [vm_compute; reflexivity|].
  split; [vm_compute; reflexivity|].
  intros H.
  specialize (H (RegionRow 1 (u "Kyiv Oblast") (504 # 10) (305 # 10)
                   (8 # 10) (u "AI"))
                (RegionRow 2 (u "kyiv oblast") (505 # 10) (306 # 10)
                   (8 # 10) (u "AI"))).
  assert (E : RegionRow 1 (u "Kyiv Oblast") (504 # 10) (305 # 10)
                (8 # 10) (u "AI")
              = RegionRow 2 (u "kyiv oblast") (505 # 10) (306 # 10)
                  (8 # 10) (u "AI")).
  { apply H.
    - vm_compute. left. reflexivity.
    - vm_compute. right. left. reflexivity.
    - vm_compute. reflexivity. }
  discriminate E.
Qed.

(** At start-up the method runs before the correction table is assigned:
    with any duplicate present it raises, and it never changes the
    database. *)
Lemma reconcile_at_startup (d : db) :
  init_clean_region_duplicates d = (0%nat, d).
Proof.
  unfold init_clean_region_duplicates, clean_region_duplicates_with.
  destruct (select_duplicates (regions d)) as [|g gs]; simpl.
  - destruct d; reflexivity.
  - unfold clean_group.
    destruct (index_of _ _); [|reflexivity].
    destruct (nth_error _ _); reflexivity.
Qed.

End CacheSpec.

(* ===================================================================== *)
(** * Properties of the enrichment client                                 *)
(* ===================================================================== *)

Module ClientSpec.

Import PyStr AIConverter.

Section Run.

Variable max_retries : nat.
Variable api_delay : Q.
Variable outcome : nat -> attempt_outcome.
Variable random : nat -> Q.

Let loop := attempts max_retries api_delay outcome random.

(** Every iteration starts with a call of the service. *)
Lemma attempts_head rem a :
  exists rest,
    snd (loop (S rem) a) = GenerateContent a :: rest.
Proof.
  unfold loop. simpl.
  destruct (outcome a) as [[|c t] | msg]; simpl; eauto.
  destruct (is_quota msg); [destruct (not_last max_retries a); simpl; eauto|].
  destruct (is_rate_limit msg); destruct (not_last max_retries a);
    simpl; eauto.
Qed.

(** An attempt that is made is the start of the rest of the loop. *)
Lemma attempts_reach n : forall rem a,
  (rem + a = max_retries)%nat ->
  In (GenerateContent n) (snd (loop rem a)) ->
  (n < max_retries)%nat
  /\ exists before,
       loop rem a = with_effects before (loop (max_retries - n) n).
Proof.
  induction rem as [|rem IH]; intros a Hsum Hin.
  - simpl in Hin. contradiction.
  - destruct (Nat.eq_dec n a) as [-> | Hne].
    + split; [lia|]. exists [].
      replace (max_retries - a)%nat with (S rem) by lia.
      unfold with_effects. cbn [app]. apply surjective_pairing.
    + assert (Hnext : In (GenerateContent n) (snd (loop rem (S a)))
                      -> (n < max_retries)%nat
                         /\ exists before,
                              loop rem (S a)
                              = with_effects before
                                  (loop (max_retries - n) n)).
      { apply IH. lia. }
      assert (Hpre : forall es,
                 (forall e, In e es -> e <> GenerateContent n) ->
                 In (GenerateContent n)
                    (snd (with_effects es (loop rem (S a)))) ->
                 (n < max_retries)%nat
                 /\ exists before,
                      with_effects es (loop rem (S a))
                      = with_effects before (loop (max_retries - n) n)).
      { intros es Hes H. unfold with_effects in H. simpl in H.
        apply in_app_or in H. destruct H as [H | H].
        - exfalso. exact (Hes _ H eq_refl).
        - destruct (Hnext H) as [Hlt [before Hb]]. split; [exact Hlt|].
          exists (es ++ before). rewrite Hb. unfold with_effects. simpl.
          now rewrite app_assoc. }
      assert (Hg : forall e, In e [GenerateContent a] ->
                             e <> GenerateContent n).
      { intros e [<- | []]. congruence. }
      assert (Hgs : forall q e, In e [GenerateContent a; Sleep q] ->
                                e <> GenerateContent n).
      { intros q e [<- | [<- | []]]; congruence. }
      assert (Hstop : forall r,
                 In (GenerateContent n)
                    (snd (r : option pystr, [GenerateContent a])) -> False).
      { intros r [H | []]. congruence. }
      unfold loop in *. simpl in Hin |- *.
      destruct (outcome a) as [[|c t] | msg].
      * now apply Hpre.
      * exfalso. exact (Hstop _ Hin).
      * destruct (is_quota msg).
        { destruct (not_last max_retries a).
          - apply Hpre; [apply Hgs | exact Hin].
          - exfalso. exact (Hstop _ Hin). }
        destruct (is_rate_limit msg).
        { destruct (not_last max_retries a).
          - apply Hpre; [apply Hgs | exact Hin].
          - exfalso. exact (Hstop _ Hin). }
        destruct (not_last max_retries a).
        { apply Hpre; [apply Hgs | exact Hin]. }
        now apply Hpre.
Qed.

(** When every attempt raises a quota error the loop gives up with
    [None]. *)
Lemma attempts_all_quota :
  (forall k, (k < max_retries)%nat ->
     exists m, outcome k = Raised m /\ is_quota m = true) ->
  forall rem a, (rem + a = max_retries)%nat -> fst (loop rem a) = None.
Proof.
  intros Hall. induction rem as [|rem IH]; intros a Hsum; [reflexivity|].
  destruct (Hall a) as [m [Hm Hq]]; [lia|].
  unfold loop in *. simpl. rewrite Hm, Hq.
  destruct (not_last max_retries a); [|reflexivity].
  simpl. apply IH. lia.
Qed.

(** A quota error before the last attempt: sleep, then go on. *)
Lemma attempts_quota_step rem n msg :
  outcome n = Raised msg -> is_quota msg = true ->
  not_last max_retries n = true ->
  loop (S rem) n
  = with_effects
      [GenerateContent n;
       Sleep (pow2 n * 10 + uniform 1 5 (random n))]
      (loop rem (S n)).
Proof.
  intros Hout Hq Hnl. unfold loop. simpl. now rewrite Hout, Hq, Hnl.
Qed.

End Run.

Lemma uniform_range a b r :
  a <= b -> 0 <= r -> r < 1 -> a <= uniform a b r /\ uniform a b r <= b.
Proof. unfold uniform. intros. split; nra. Qed.

(** The claim of C6 as it is stated fails in its last part: the call has
    one failure value, [None], whatever made the attempts fail. *)
Lemma failure_kinds_indistinguishable :
  let quota := fun _ : nat => Raised (u "429 Quota exceeded") in
  let limited := fun _ : nat => Raised (u "Rate limit reached") in
  let other := fun _ : nat => Raised (u "Connection reset") in
  let half := fun _ : nat => 1 # 2 in
  is_quota (u "429 Quota exceeded") = true
  /\ is_quota (u "Rate limit reached") = false
  /\ is_rate_limit (u "Rate limit reached") = true
  /\ is_quota (u "Connection reset") = false
  /\ is_rate_limit (u "Connection reset") = false
  /\ fst (_rate_limited_api_call 3 2 quota half 0) = None
  /\ fst (_rate_limited_api_call 3 2 limited half 0)
     = fst (_rate_limited_api_call 3 2 quota half 0)
  /\ fst (_rate_limited_api_call 3 2 other half 0)
     = fst (_rate_limited_api_call 3 2 quota half 0).
Proof. evaluate. Qed.

(** C6 (amended). With [max_retries] attempts (3 by default), a quota
    error at attempt [n], [n] below the last attempt, is followed by a
    sleep of 10 * 2^n seconds plus a jitter between 1 and 5 seconds and
    then by attempt [n + 1]; when every attempt ends in a quota error the
    call returns [None], the value it returns for every other failure. *)
Theorem quota_retry_policy (max_retries : nat) (api_delay : Q)
    (outcome : nat -> attempt_outcome) (random : nat -> Q)
    (time_since_last_call : Q) :
  let run :=
    _rate_limited_api_call max_retries api_delay outcome random
      time_since_last_call in
  (forall n msg,
      (n + 1 < max_retries)%nat ->
      In (GenerateContent n) (snd run) ->
      outcome n = Raised msg -> is_quota msg = true ->
      0 <= random n -> random n < 1 ->
      exists jitter before after,
        1 <= jitter /\ jitter <= 5
        /\ snd run
           = before ++ GenerateContent n
               :: Sleep (inject_Z (2 ^ Z.of_nat n) * 10 + jitter)
               :: GenerateContent (S n) :: after)
  /\ ((forall k, (k < max_retries)%nat ->
         exists m, outcome k = Raised m /\ is_quota m = true) ->
      fst run = None).
Proof.
  intros run. split.
  - intros n msg Hn Hin Hout Hq H0 H1.
    exists (uniform 1 5 (random n)).
    destruct (uniform_range 1 5 (random n)) as [J1 J2];
      [unfold Qle; simpl; lia | assumption | assumption |].
    subst run. unfold _rate_limited_api_call in *.
    set (throttle := if Qle_bool api_delay time_since_last_call then []
                     else [Sleep (api_delay - time_since_last_call)]) in *.
    unfold with_effects in Hin |- *. simpl in Hin |- *.
    apply in_app_or in Hin. destruct Hin as [Hin | Hin].
    { exfalso. subst throttle.
      destruct (Qle_bool api_delay time_since_last_call); simpl in Hin.
      - contradiction.
      - destruct Hin as [Hin | []]. discriminate. }
    destruct (attempts_reach max_retries api_delay outcome random n
                max_retries 0) as [_ [before Hb]]; [lia | exact Hin |].
    rewrite Hb.
    destruct (max_retries - n)%nat as [|[|rem]] eqn:E; [lia | lia |].
    destruct (attempts_head max_retries api_delay outcome random rem (S n))
      as [rest Hrest].
    exists (throttle ++ before), rest.
    split; [exact J1 | split; [exact J2|]].
    assert (Hnl : not_last max_retries n = true).
    { unfold not_last. apply Nat.ltb_lt. lia. }
    rewrite (attempts_quota_step max_retries api_delay outcome random
               (S rem) n msg Hout Hq Hnl).
    unfold with_effects. cbn [fst snd]. rewrite Hrest.
    unfold pow2. rewrite <- app_assoc. reflexivity.
  - intros Hall. subst run. unfold _rate_limited_api_call, with_effects.
    simpl. apply attempts_all_quota; [exact Hall | lia].
Qed.

Lemma quota_retry_policy_witness :
  let outcome := fun _ : nat => Raised (u "429 Quota exceeded") in
  let random := fun _ : nat => 1 # 2 in
  let run := _rate_limited_api_call 3 2 outcome random 5 in
  snd run = [GenerateContent 0; Sleep (1 * 10 + (1 + (5 - 1) * (1 # 2)));
             GenerateContent 1; Sleep (2 * 10 + (1 + (5 - 1) * (1 # 2)));
             GenerateContent 2]
  /\ (exists jitter before after,
        1 <= jitter /\ jitter <= 5
        /\ snd run
           = before ++ GenerateContent 1
               :: Sleep (inject_Z (2 ^ Z.of_nat 1) * 10 + jitter)
               :: GenerateContent 2 :: after)
  /\ fst run = None.
Proof.
  intros outcome random run.
  destruct (quota_retry_policy 3 2 outcome random 5) as [Hstep Hnone].
  split; [reflexivity|]. split.
  - apply (Hstep 1%nat (u "429 Quota exceeded")).
    + simpl; lia.
    + vm_compute. right. right. left. reflexivity.
    + reflexivity.
    + vm_compute. reflexivity.
    + unfold Qle; simpl; lia.
    + reflexivity.
  - apply Hnone. intros k _. exists (u "429 Quota exceeded").
    split; [reflexivity | vm_compute; reflexivity].
Defined.

End ClientSpec.

(* ===================================================================== *)
(** * Properties of the bulletin parser                                   *)
(* ===================================================================== *)

Module ReFacts.

Import PyStr Re.

(** A successful match is a successful call of the continuation. *)
Lemma plus_loop_k k p s res :
  plus_loop k p s = Some res -> exists s', k s' = Some res.
Proof.
  induction s as [|c r IH]; simpl; [discriminate|].
  destruct (p c); [|discriminate].
  destruct (plus_loop k p r) as [res'|].
  - intros [= <-]. now apply IH.
  - intros H. now exists r.
Qed.

Lemma match_re_k ic r : forall s caps k res,
  match_re ic r s caps k = Some res ->
  exists s' caps', k s' caps' = Some res.
Proof.
  induction r as [|p|p|p|a IHa b IHb|a IHa b IHb|a IHa|n a IHa];
    intros s caps k res; simpl.
  - eauto.
  - destruct s as [|c s']; [discriminate|].
    destruct (lit_matches ic p c); [eauto | discriminate].
  - destruct s as [|c s']; [discriminate|].
    destruct (p c); [eauto | discriminate].
  - intros H. apply plus_loop_k in H. destruct H as [s' H]. eauto.
  - intros H. apply IHa in H. destruct H as (s' & caps' & H).
    now apply IHb in H.
  - destruct (match_re ic a s caps k) as [res'|] eqn:E.
    + intros [= <-]. now apply IHa in E.
    + apply IHb.
  - destruct (match_re ic a s caps k) as [res'|] eqn:E.
    + intros [= <-]. now apply IHa in E.
    + eauto.
  - intros H. apply IHa in H. destruct H as (s' & caps' & H). eauto.
Qed.

(** A pattern that ends in a group reports that group. *)
Lemma match_seq_last ic a b s caps k res :
  match_re ic (Seq a b) s caps k = Some res ->
  exists s' caps', match_re ic b s' caps' k = Some res.
Proof. simpl. apply match_re_k. Qed.

Lemma match_group_last ic n a s caps res :
  match_re ic (Group n a) s caps (fun _ c => Some c) = Some res ->
  exists x, group n res = Some x.
Proof.
  simpl. intros H. apply match_re_k in H. destruct H as (s' & caps' & H).
  injection H as <-. simpl. rewrite Nat.eqb_refl. eauto.
Qed.

Lemma search_match ic r s res :
  search ic r s = Some res ->
  exists s', match_re ic r s' [] (fun _ c => Some c) = Some res.
Proof.
  induction s as [|c s' IH]; simpl.
  - destruct (match_re ic r [] [] _) eqn:E; [|discriminate].
    intros [= <-]. eauto.
  - destruct (match_re ic r (c :: s') [] _) eqn:E.
    + intros [= <-]. eauto.
    + apply IH.
Qed.

End ReFacts.

Module ParserSpec.

Import PyStr Re AIConverter StrFacts ReFacts.

(** *** The dictionary of regions *)

Lemma has_key_app k d d' :
  has_key k (d ++ d') = has_key k d || has_key k d'.
Proof.
  induction d as [|[k' ws] d IH]; simpl; auto.
  now rewrite IH, orb_assoc.
Qed.

Lemma has_key_append_to k r w d :
  has_key k (append_to r w d) = has_key k d.
Proof.
  induction d as [|[k' ws] d IH]; simpl; auto.
  destruct (str_eqb k' r); simpl; now rewrite ?IH.
Qed.

Lemma keys_append_to r w d : map fst (append_to r w d) = map fst d.
Proof.
  induction d as [|[k' ws] d IH]; simpl; auto.
  destruct (str_eqb k' r); simpl; now rewrite ?IH.
Qed.

Lemma events_of_append_to r w d :
  has_key r d = true ->
  events_of r (append_to r w d) = events_of r d ++ [w].
Proof.
  induction d as [|[k' ws] d IH]; simpl; [discriminate|].
  destruct (str_eqb k' r) eqn:E; simpl; rewrite E; auto.
Qed.

Lemma events_of_append_other r r' w d :
  r' <> r -> events_of r' (append_to r w d) = events_of r' d.
Proof.
  intros Hne. induction d as [|[k' ws] d IH]; simpl; auto.
  destruct (str_eqb k' r) eqn:E; simpl.
  - apply str_eqb_eq in E. subst k'.
    destruct (str_eqb r r') eqn:E'; auto.
    apply str_eqb_eq in E'. congruence.
  - now rewrite IH.
Qed.

(** *** One step of the loop *)

Lemma parse_line_keys st raw k :
  has_key k (regions_of st) = true ->
  has_key k (regions_of (parse_line st raw)) = true.
Proof.
  intros H. unfold parse_line.
  destruct (strip raw) as [|c l]; auto.
  destruct (endswith_char 58 (c :: l)); cbn [regions_of].
  - destruct (has_key (remove_char 58 (c :: l)) (regions_of st)); auto.
    rewrite has_key_app, H. reflexivity.
  - destruct (current_region st) as [[|c' r]|]; auto.
    destruct (parse_item (c :: l)); auto.
    cbn [regions_of]. now rewrite has_key_append_to.
Qed.

Lemma parse_lines_keys lines : forall st k,
  has_key k (regions_of st) = true ->
  has_key k (regions_of (fold_left parse_line lines st)) = true.
Proof.
  induction lines as [|l lines IH]; intros st k H; simpl; auto.
  apply IH. now apply parse_line_keys.
Qed.

Lemma has_key_new k d : has_key k (d ++ [(k, [])]) = true.
Proof.
  rewrite has_key_app. cbn [has_key]. rewrite str_eqb_refl.
  now rewrite orb_true_r.
Qed.

Lemma parse_line_header st raw :
  strip raw <> [] ->
  endswith_char 58 (strip raw) = true ->
  has_key (remove_char 58 (strip raw)) (regions_of (parse_line st raw))
  = true.
Proof.
  intros Hne He. unfold parse_line.
  destruct (strip raw) as [|c l]; [congruence|].
  rewrite He. cbn [regions_of].
  destruct (has_key (remove_char 58 (c :: l)) (regions_of st)) eqn:E; auto.
  apply has_key_new.
Qed.

(** Lists stay empty as long as no item line is recognised. *)
Lemma parse_line_empty st raw :
  Forall (fun e => snd e = []) (regions_of st) ->
  (endswith_char 58 (strip raw) = false -> parse_item (strip raw) = None) ->
  Forall (fun e => snd e = []) (regions_of (parse_line st raw)).
Proof.
  intros H Hitem. unfold parse_line.
  destruct (strip raw) as [|c l]; auto.
  destruct (endswith_char 58 (c :: l)); cbn [regions_of].
  - destruct (has_key (remove_char 58 (c :: l)) (regions_of st)); auto.
    apply Forall_app. split; auto.
  - destruct (current_region st) as [[|c' r]|]; auto.
    now rewrite Hitem.
Qed.

Lemma parse_lines_empty lines : forall st,
  Forall (fun e => snd e = []) (regions_of st) ->
  (forall line, In line lines ->
     endswith_char 58 (strip line) = false ->
     parse_item (strip line) = None) ->
  Forall (fun e => snd e = []) (regions_of (fold_left parse_line lines st)).
Proof.
  induction lines as [|l lines IH]; intros st H Hnone; cbn [fold_left]; auto.
  apply IH.
  - apply parse_line_empty; auto. apply Hnone. now left.
  - intros line Hl. apply Hnone. now right.
Qed.

(** The current region is a key of the dictionary. *)
Definition current_is_key (st : parser_state) : Prop :=
  forall r, current_region st = Some r -> has_key r (regions_of st) = true.

Lemma parse_line_current st raw :
  current_is_key st -> current_is_key (parse_line st raw).
Proof.
  intros H r. unfold parse_line.
  destruct (strip raw) as [|c l] eqn:E; [apply H|].
  destruct (endswith_char 58 (c :: l)) eqn:He;
    cbn [regions_of current_region].
  - intros [= <-].
    destruct (has_key (remove_char 58 (c :: l)) (regions_of st)) eqn:K; auto.
    apply has_key_new.
  - destruct (current_region st) as [[|c' r']|] eqn:Ec.
    + intros Hr. apply H. congruence.
    + destruct (parse_item (c :: l)); cbn [regions_of current_region].
      * intros Hr. rewrite has_key_append_to. apply H. congruence.
      * intros Hr. apply H. congruence.
    + intros Hr. apply H. congruence.
Qed.

Lemma extract_lines_current lines : current_is_key (extract_lines lines).
Proof.
  unfold extract_lines.
  assert (G : forall st, current_is_key st ->
                         current_is_key (fold_left parse_line lines st)).
  { induction lines as [|l lines IH]; intros st H; simpl; auto.
    apply IH. now apply parse_line_current. }
  apply G. intros r. simpl. discriminate.
Qed.

Lemma extract_lines_snoc before raw :
  extract_lines (before ++ [raw]) = parse_line (extract_lines before) raw.
Proof. unfold extract_lines. now rewrite fold_left_app. Qed.

(** *** The grouped pattern *)

Lemma group_kr_has_destination s caps :
  search true group_kr_re s = Some caps ->
  exists city, group 2 caps = Some city.
Proof.
  intros H. apply search_match in H. destruct H as [s' H].
  unfold group_kr_re in H.
  repeat (apply match_seq_last in H; destruct H as (? & ? & H)).
  now apply match_group_last in H.
Qed.

Lemma parse_item_grouped line caps city :
  search true group_kr_re line = Some caps ->
  group 2 caps = Some city ->
  parse_item line
  = Some (Weapon X101 (count_of (group 1 caps) * 2) (strip city)).
Proof. intros H G. unfold parse_item. now rewrite H, G. Qed.

(** *** Region headers *)

(** C10. Every header line of the bulletin (a line that, stripped, is not
    empty and ends in a colon) has an entry in the returned mapping, under
    its text without colons; and when no item line is recognised, every
    region of the mapping has the empty list. *)
Theorem header_creates_entry (text : pystr) :
  (forall line,
      In line (split_on 10 (strip text)) ->
      strip line <> [] ->
      endswith_char 58 (strip line) = true ->
      has_key (remove_char 58 (strip line)) (extract_weapon_info text) = true)
  /\ ((forall line,
          In line (split_on 10 (strip text)) ->
          endswith_char 58 (strip line) = false ->
          parse_item (strip line) = None) ->
      forall region events,
        In (region, events) (extract_weapon_info text) -> events = []).
Proof.
  unfold extract_weapon_info, extract_lines.
  generalize (split_on 10 (strip text)) as lines. intros lines. split.
  - intros line Hin Hne He.
    apply in_split in Hin. destruct Hin as (l1 & l2 & ->).
    rewrite fold_left_app. cbn [fold_left].
    apply parse_lines_keys. now apply parse_line_header.
  - intros Hnone region events Hin.
    pose proof (parse_lines_empty lines (ParserState [] None)
                  (Forall_nil _) Hnone) as G.
    rewrite Forall_forall in G. exact (G _ Hin).
Qed.

(** A bulletin with two headers and a line that is no item. *)
Lemma header_creates_entry_witness :
  let text := u "Київщина:" ++ [10%N] ++ u "без змін" ++ [10%N]
              ++ u " Одещина: " in
  extract_weapon_info text = [(u "Київщина", []); (u "Одещина", [])]
  /\ has_key (u "Одещина") (extract_weapon_info text) = true
  /\ (forall region events,
        In (region, events) (extract_weapon_info text) -> events = []).
Proof.
  intros text.
  destruct (header_creates_entry text) as [Hkey Hempty].
  split; [vm_compute; reflexivity|]. split.
  - apply (Hkey (u " Одещина:")).
    + vm_compute. right. right. left. reflexivity.
    + vm_compute. discriminate.
    + vm_compute. reflexivity.
  - apply Hempty. intros line Hin _.
    vm_compute in Hin.
    destruct Hin as [<- | [<- | [<- | []]]]; vm_compute; reflexivity.
Defined.

(** *** Grouped lines *)



Lemma some_inj {A} (a b : A) : Some a = Some b -> a = b.
Proof. congruence. Qed.


End ParserSpec.

(* ===================================================================== *)
(** * Properties of the orchestrator                                      *)
(* ===================================================================== *)

Module OrchestratorSpec.

Import PyStr SQLiteFlow AIConverter StrFacts.

(** A weapon whose city the cache does not resolve. *)
Definition missing (d : db) (region : pystr) (w : weapon) : bool :=
  match get_city_coordinates d (target_city w) region with
  | Some _ => false
  | None => true
  end.

(** The regions that were resolved, in order. *)
Fixpoint successes (outcomes : list (option region_data))
    : list region_data :=
  match outcomes with
  | [] => []
  | Some rd :: rest => rd :: successes rest
  | None :: rest => successes rest
  end.

Definition sum_nat (l : list nat) : nat := fold_right Nat.add 0%nat l.
Definition sum_Z (l : list Z) : Z := fold_right Z.add 0%Z l.

(** *** Cache first *)

Lemma get_city_cached d city region :
  get_city_coordinates d city region <> None <-> cached d city region.
Proof.
  unfold get_city_coordinates, cached. split.
  - destruct (find _ (cities d)) as [r|] eqn:E; [intros _ | congruence].
    apply find_some in E. destruct E as [Hin Hk].
    unfold city_key in Hk. apply andb_true_iff in Hk.
    destruct Hk as [H1 H2]. apply str_eqb_eq in H1, H2. eauto.
  - intros (r & Hin & H1 & H2).
    destruct (find _ (cities d)) as [r'|] eqn:E; [discriminate|].
    exfalso. apply (find_none _ _ E) in Hin.
    unfold city_key in Hin. rewrite H1, H2, !str_eqb_refl in Hin.
    discriminate.
Qed.

Lemma missing_not_cached d region w :
  missing d region w = true <-> ~ cached d (target_city w) region.
Proof.
  rewrite <- get_city_cached. unfold missing.
  destruct (get_city_coordinates d (target_city w) region).
  - split; [discriminate | intros H; exfalso; apply H; discriminate].
  - split; [intros _ H; now apply H | reflexivity].
Qed.

Lemma lookup_cities_misses d region ws :
  snd (lookup_cities d region ws) = filter (missing d region) ws.
Proof.
  induction ws as [|w ws IH]; [reflexivity|].
  cbn [lookup_cities filter]. unfold missing at 1.
  destruct (lookup_cities d region ws) as [targets wfa].
  cbn [snd] in IH.
  destruct (get_city_coordinates d (target_city w) region);
    cbn [snd]; now rewrite IH.
Qed.

(** What the method sends: nothing, or the one request with the misses. *)
Lemma requests_sent enrich d region ws :
  snd (get_region_coordinates_from_ai enrich d region ws)
  = match filter (missing d region) ws, get_region_coordinates d region with
    | [], Some _ => []
    | unresolved, _ => [Request region unresolved]
    end.
Proof.
  unfold get_region_coordinates_from_ai.
  rewrite <- lookup_cities_misses.
  destruct (lookup_cities d region ws) as [targets wfa]. cbn [snd].
  destruct (get_region_coordinates d region) as [f|]; cbn [option_map].
  - destruct wfa as [|w wfa]; [reflexivity|].
    destruct (enrich _) as [| |ai]; try reflexivity.
    destruct (region_coordinates ai);
      destruct (save_targets _ _ _) as [d2 []]; reflexivity.
  - assert (G : forall l,
       snd (match enrich (Request region l) with
            | NoResponse => (Error (u "api_error"), d, [Request region l])
            | NotJson => (Error (u "json_parse_error"), d, [Request region l])
            | Json ai =>
                match
                  match region_coordinates ai, @None json_coordinates with
                  | Some reg_coords, None =>
                      match j_latitude reg_coords, j_longitude reg_coords with
                      | Some lat, Some lon =>
                          Some (snd (save_region_coordinates d region lat lon
                                       (get_default (region_confidence ai))
                                       Gemini),
                                Some reg_coords)
                      | _, _ => None
                      end
                  | _, _ => Some (d, None)
                  end
                with
                | None => (Error (u "processing_error"), d, [Request region l])
                | Some (d1, region_coords') =>
                    let returned :=
                      match ai_targets ai with Some ts => ts | None => [] end in
                    let '(d2, ok) := save_targets d1 region returned in
                    if ok
                    then (Result region (targets ++ returned) region_coords',
                          d2, [Request region l])
                    else (Error (u "processing_error"), d2,
                          [Request region l])
                end
            end) = [Request region l]).
    { intros l. destruct (enrich _) as [| |ai]; try reflexivity.
      destruct (region_coordinates ai) as [rc|].
      - destruct (j_latitude rc), (j_longitude rc); try reflexivity;
          cbv zeta; destruct (save_targets _ _ _) as [d2 []]; reflexivity.
      - cbv zeta. destruct (save_targets _ _ _) as [d2 []]; reflexivity. }
    destruct wfa as [|w wfa]; apply G.
Qed.



(** What the missed lookup of C4 costs: the region written under the
    corrected name is not found under the spelling of the bulletin, and a
    second resolution, with every city cached, asks the service again. *)
Lemma misspelt_region_asked_again :
  let enrich := fun _ : request =>
    Json (AiResult
            (Some (JsonCoordinates (Some (494 # 10)) (Some 27)))
            None
            (Some [Target (Some (u "Хмельницький")) (Some (u "Шахед"))
                     (Some 1%Z)
                     (Some (JsonCoordinates (Some (4942 # 100))
                                            (Some (2698 # 100))))
                     None None])) in
  let weapons := [Weapon (u "Шахед") 1 (u "Хмельницький")] in
  let first :=
    get_region_coordinates_from_ai enrich empty_db (u "хмельничена")
      weapons in
  let d := snd (fst first) in
  map r_region_name (SQLiteFlow.regions d) = [u "Хмельниччина"]
  /\ cached d (u "Хмельницький") (u "хмельничена")
  /\ snd (get_region_coordinates_from_ai enrich d (u "хмельничена") weapons)
     = [Request (u "хмельничена") []].
Proof.
  intros enrich weapons first d.
  split; [vm_compute; reflexivity|]. split.
  - exists (CityRow 1 (u "Хмельницький") (u "Хмельниччина") (4942 # 100)
              (2698 # 100) (8 # 10) Gemini).
    split; [vm_compute; left; reflexivity|].
    split; vm_compute; reflexivity.
  - vm_compute. reflexivity.
Qed.

(** *** Failures stay with their region *)

Lemma collect_from outcomes : forall acc,
  let acc' := fold_left collect_one outcomes acc in
  regions_data acc' = regions_data acc ++ successes outcomes
  /\ total_cities acc'
     = (total_cities acc
        + sum_nat (map (fun rd => length (rd_targets rd))
                       (successes outcomes)))%nat
  /\ total_weapons_count acc'
     = (total_weapons_count acc
        + sum_Z (map weapons_count (successes outcomes)))%Z.
Proof.
  induction outcomes as [|[rd|] rest IH]; intros acc; cbn [fold_left].
  - cbn. rewrite app_nil_r. split; [reflexivity | split; lia].
  - destruct (IH (collect_one acc (Some rd))) as (H1 & H2 & H3).
    cbv zeta. rewrite H1, H2, H3. unfold sum_nat, sum_Z.
    cbn [collect_one regions_data total_cities total_weapons_count
         successes map fold_right].
    rewrite <- app_assoc. split; [reflexivity | split; lia].
  - apply IH.
Qed.

Lemma set_add_In x y l : In x (set_add y l) <-> x = y \/ In x l.
Proof.
  unfold set_add. destruct (existsb (str_eqb y) l) eqn:E.
  - split; [now right|]. intros [-> | H]; auto.
    apply existsb_exists in E. destruct E as (z & Hz & Hy).
    apply str_eqb_eq in Hy. now subst z.
  - rewrite in_app_iff. simpl. intuition congruence.
Qed.

Lemma add_types_In wt ts : forall l,
  In wt (fold_left (fun types t => set_add (rt_weapon_type t) types) ts l)
  <-> In wt l \/ exists t, In t ts /\ rt_weapon_type t = wt.
Proof.
  induction ts as [|t ts IH]; intros l; cbn [fold_left].
  - split; [now left|]. intros [H | (t & [] & _)]; exact H.
  - rewrite IH, set_add_In. split.
    + intros [[-> | H] | (t' & Hin & E)].
      * right. exists t. split; [now left | reflexivity].
      * now left.
      * right. exists t'. split; [now right | exact E].
    + intros [H | (t' & [<- | Hin] & E)].
      * left. now right.
      * left. left. now symmetry.
      * right. eauto.
Qed.

Lemma collect_types wt outcomes : forall acc,
  In wt (all_weapon_types (fold_left collect_one outcomes acc))
  <-> In wt (all_weapon_types acc)
      \/ exists rd t, In rd (successes outcomes)
                      /\ In t (rd_targets rd) /\ rt_weapon_type t = wt.
Proof.
  induction outcomes as [|[rd|] rest IH]; intros acc; cbn [fold_left].
  - split; [now left|]. intros [H | (rd & t & [] & _)]; exact H.
  - rewrite IH. cbn [collect_one all_weapon_types successes].
    rewrite add_types_In. split.
    + intros [[H | (t & Hin & E)] | (rd' & t & Hin & Ht & E)].
      * now left.
      * right. exists rd, t. split; [now left | auto].
      * right. exists rd', t. split; [now right | auto].
    + intros [H | (rd' & t & [<- | Hin] & Ht & E)].
      * left. now left.
      * left. right. eauto.
      * right. eauto.
  - apply IH.
Qed.

Lemma successes_none outcomes :
  Forall (fun o => o = None) outcomes -> successes outcomes = [].
Proof. induction 1 as [|o l -> _ IH]; simpl; auto. Qed.

Section Sequential.

Variable enrich : request -> api_reply.

(** Each region is run on the database its predecessors left, whatever
    their outcomes were; none is skipped. *)
Lemma process_regions_app d items1 items2 :
  process_regions enrich d (items1 ++ items2)
  = let '(o1, d1, s1) := process_regions enrich d items1 in
    let '(o2, d2, s2) := process_regions enrich d1 items2 in
    (o1 ++ o2, d2, s1 ++ s2).
Proof.
  revert d. induction items1 as [|[r ws] rest IH]; intros d.
  - cbn. now destruct (process_regions enrich d items2) as [[o2 d2] s2].
  - cbn [app process_regions].
    destruct (_process_single_region enrich d r ws) as [[o d1] s1].
    rewrite IH.
    destruct (process_regions enrich d1 rest) as [[o1 d1'] s1'].
    destruct (process_regions enrich d1' items2) as [[o2 d2] s2].
    now rewrite app_assoc.
Qed.

Lemma process_regions_length d items :
  length (fst (fst (process_regions enrich d items))) = length items.
Proof.
  revert d. induction items as [|[r ws] rest IH]; intros d; [reflexivity|].
  cbn [process_regions].
  destruct (_process_single_region enrich d r ws) as [[o d1] s1].
  specialize (IH d1).
  destruct (process_regions enrich d1 rest) as [[o1 d1'] s1'].
  cbn in *. now rewrite IH.
Qed.

End Sequential.

(** What the collecting loop and the result dictionary hold, for any
    outcomes in any order: this is the part both branches share. *)
Lemma make_result_spec outcomes mode d :
  let result := make_result (collect outcomes) mode d in
  regions result = successes outcomes
  /\ total_regions result = length (successes outcomes)
  /\ rr_total_cities result
     = sum_nat (map (fun rd => length (rd_targets rd)) (successes outcomes))
  /\ rr_total_weapons_count result
     = sum_Z (map weapons_count (successes outcomes))
  /\ (forall wt,
        In wt (total_weapons_used result) <->
        exists rd t, In rd (successes outcomes)
                     /\ In t (rd_targets rd) /\ rt_weapon_type t = wt)
  /\ status result = u "success".
Proof.
  unfold make_result, collect.
  destruct (collect_from outcomes (Totals [] 0%Z [] 0%nat)) as (H1 & H2 & H3).
  cbv zeta in H1, H2, H3. cbn [regions_data total_cities
    total_weapons_count app] in H1, H2, H3.
  cbn [regions total_regions rr_total_cities rr_total_weapons_count
       total_weapons_used status].
  rewrite H1, H2, H3.
  split; [reflexivity|]. split; [reflexivity|]. split; [reflexivity|].
  split; [lia|]. split; [|reflexivity].
  intros wt. rewrite collect_types. cbn [all_weapon_types In]. tauto.
Qed.

Lemma collect_all_failed outcomes :
  Forall (fun o => o = None) outcomes ->
  collect outcomes = Totals [] 0%Z [] 0%nat.
Proof.
  unfold collect. generalize (Totals [] 0%Z [] 0%nat).
  induction 1 as [|o l -> _ IH]; simpl; auto.
Qed.



End OrchestratorSpec.
